(** * MongoDBDistributedCache: a distributed cache kept in a document store

    The adapter [MongoDBDistributedCache] implements the byte-blob cache
    contract (Get / Set / Remove / Refresh) on top of one collection of
    [CacheEntry] documents.  This development embeds the blocking methods
    of the adapter as computations in a state monad whose state is the
    collection, with the reading of the clock ([DateTime.UtcNow]) made an
    explicit argument of each call, and proves the properties the
    specification states about them.  The cancellable variants are embedded
    next to them, as computations that may end in an exception. *)

From Stdlib Require Import ZArith List String Bool Lia.
From Stdlib Require Import Init.Byte.
From ExtLib Require Import Structures.Monad Structures.MonadState.
From ExtLib Require Import Data.Monads.StateMonad.
Import ListNotations.
Import MonadNotation.
Local Open Scope monad_scope.
Local Open Scope Z_scope.

(** ** Values of the host platform *)

(** [DateTime] and [TimeSpan] are tick counts; a [TimeSpan] may be negative. *)
Definition DateTime := Z.
Definition TimeSpan := Z.

(** [byte[]]: the parameter of [Set] is a non-nullable array, so a stored
    value is always a (possibly empty) sequence of bytes. *)
Definition bytes := list byte.

(** A point in time together with its offset from UTC; [UtcDateTime] is
    the only member the adapter reads. *)
Record DateTimeOffset := mkDateTimeOffset {
  UtcDateTime : DateTime;
  Offset : TimeSpan
}.

(** The options a caller passes to [Set].  The adapter reads
    [AbsoluteExpiration] and [SlidingExpiration] only. *)
Module DistributedCacheEntryOptions.
Record t := mk {
  AbsoluteExpiration : option DateTimeOffset;
  AbsoluteExpirationRelativeToNow : option TimeSpan;
  SlidingExpiration : option TimeSpan
}.

(** [new DistributedCacheEntryOptions()], written [{}] in the cache contract. *)
Definition empty : t := mk None None None.
End DistributedCacheEntryOptions.

(** ** The document *)

Module CacheEntry.
(** Modelled from the spec: the class [CacheEntry] is declared outside the
    adapter's file; its fields are those of section 3 of the
    specification (one document per cache key). *)
Record t := mk {
  Id : string;
  Value : bytes;
  AbsoluteExpiration : option DateTime;
  SlidingExpiration : option TimeSpan;
  LastAccessTime : DateTime
}.

(** The assignment [entry.LastAccessTime = now] on an entry object. *)
Definition set_LastAccessTime (now : DateTime) (entry : t) : t :=
  mk (Id entry) (Value entry) (AbsoluteExpiration entry)
     (SlidingExpiration entry) now.
End CacheEntry.

(** ** The collection of documents

    [IMongoCollection<CacheEntry>] as the adapter uses it: find by a filter,
    replace the first document that matches a filter (inserting the
    replacement when none does and the upsert option is set), delete the
    first document that matches a filter. *)
Module MongoCollection.

Definition t := list CacheEntry.t.

Definition filter_t := CacheEntry.t -> bool.

Record ReplaceOptions := mkReplaceOptions { IsUpsert : bool }.

Definition FirstOrDefault (found : list CacheEntry.t) : option CacheEntry.t :=
  match found with
  | [] => None
  | entry :: _ => Some entry
  end.

Fixpoint replace_first (f : filter_t) (replacement : CacheEntry.t) (c : t)
  : option t :=
  match c with
  | [] => None
  | x :: c' =>
      if f x then Some (replacement :: c')
      else match replace_first f replacement c' with
           | Some c'' => Some (x :: c'')
           | None => None
           end
  end.

Fixpoint delete_first (f : filter_t) (c : t) : t :=
  match c with
  | [] => []
  | x :: c' => if f x then c' else x :: delete_first f c'
  end.

Definition Find (f : filter_t) : state t (list CacheEntry.t) :=
  c <- get ;; ret (filter f c).

Definition ReplaceOne (f : filter_t) (replacement : CacheEntry.t)
    (options : ReplaceOptions) : state t unit :=
  c <- get ;;
  match replace_first f replacement c with
  | Some c' => put c'
  | None => if IsUpsert options then put (c ++ [replacement]) else ret tt
  end.

Definition DeleteOne (f : filter_t) : state t unit :=
  c <- get ;; put (delete_first f c).

End MongoCollection.

(** ** The adapter *)

Module MongoDBDistributedCache.
Import MongoCollection.

(** The filter [x => x.Id == key]. *)
Definition by_Id (key : string) : filter_t :=
  fun x => String.eqb (CacheEntry.Id x) key.

Definition Get (UtcNow : DateTime) (key : string) : state t (option bytes) :=
  found <- Find (by_Id key) ;;
  match FirstOrDefault found with
  | None => ret None
  | Some entry =>
      match CacheEntry.SlidingExpiration entry with
      | Some _ =>
          let entry := CacheEntry.set_LastAccessTime UtcNow entry in
          ReplaceOne (by_Id key) entry (mkReplaceOptions false) ;;
          ret (Some (CacheEntry.Value entry))
      | None => ret (Some (CacheEntry.Value entry))
      end
  end.

Definition Refresh (UtcNow : DateTime) (key : string) : state t unit :=
  found <- Find (by_Id key) ;;
  match FirstOrDefault found with
  | Some entry =>
      match CacheEntry.SlidingExpiration entry with
      | Some _ =>
          let entry := CacheEntry.set_LastAccessTime UtcNow entry in
          ReplaceOne (by_Id key) entry (mkReplaceOptions false)
      | None => ret tt
      end
  | None => ret tt
  end.

Definition Remove (key : string) : state t unit :=
  DeleteOne (by_Id key).

(** The method [Set] ([Set] itself is a reserved word here). *)
Definition Set_ (UtcNow : DateTime) (key : string) (value : bytes)
    (options : DistributedCacheEntryOptions.t) : state t unit :=
  let entry :=
    CacheEntry.mk key value
      (option_map UtcDateTime
         (DistributedCacheEntryOptions.AbsoluteExpiration options))
      (DistributedCacheEntryOptions.SlidingExpiration options)
      UtcNow in
  ReplaceOne (by_Id key) entry (mkReplaceOptions true).

End MongoDBDistributedCache.

Import MongoCollection MongoDBDistributedCache.

(** ** Observing the store *)

(** The document stored under [key]: what [Find(x => x.Id == key)
    .FirstOrDefault()] reads. *)
Definition document (key : string) (c : t) : option CacheEntry.t :=
  FirstOrDefault (filter (by_Id key) c).

(** The documents stored under the other keys, in the order of the store. *)
Definition others (key : string) (c : t) : list CacheEntry.t :=
  filter (fun x => negb (by_Id key x)) c.

(** The primary-key property of the collection: no two documents share an [Id]. *)
Definition UniqueIds (c : t) : Prop := NoDup (map CacheEntry.Id c).

(** The store in which the first document under [key], when there is one,
    has been replaced by [replacement]. *)
Definition replaced (key : string) (replacement : CacheEntry.t) (c : t) : t :=
  match replace_first (by_Id key) replacement c with
  | Some c' => c'
  | None => c
  end.

(** The store after an upsert of [replacement] under [key]. *)
Definition upserted (key : string) (replacement : CacheEntry.t) (c : t) : t :=
  match replace_first (by_Id key) replacement c with
  | Some c' => c'
  | None => c ++ [replacement]
  end.

(** ** Histories of calls *)

Inductive Call :=
| CallGet (key : string)
| CallRefresh (key : string)
| CallRemove (key : string)
| CallSet (key : string) (value : bytes)
          (options : DistributedCacheEntryOptions.t).

(** The store after one call made when the clock reads [now]. *)
Definition exec (now : DateTime) (call : Call) (c : t) : t :=
  match call with
  | CallGet key => snd (runState (Get now key) c)
  | CallRefresh key => snd (runState (Refresh now key) c)
  | CallRemove key => snd (runState (Remove key) c)
  | CallSet key value options => snd (runState (Set_ now key value options) c)
  end.

(** The store after a history of calls, each with the clock reading it saw. *)
Fixpoint run (h : list (DateTime * Call)) (c : t) : t :=
  match h with
  | [] => c
  | (now, call) :: h' => run h' (exec now call c)
  end.

(** The clock never goes back: every call of the history reads a time that is
    not before the time of the call before it, the first not before [t0]. *)
Fixpoint chronological (t0 : DateTime) (h : list (DateTime * Call)) : Prop :=
  match h with
  | [] => True
  | (now, _) :: h' => t0 <= now /\ chronological now h'
  end.

(** The time of the last call of a history that starts at [t0]. *)
Fixpoint last_time (t0 : DateTime) (h : list (DateTime * Call)) : DateTime :=
  match h with
  | [] => t0
  | (now, _) :: h' => last_time now h'
  end.

(** Calls that may create, overwrite or delete the document under [key]. *)
Definition rewrites (key : string) (call : Call) : bool :=
  match call with
  | CallGet _ | CallRefresh _ => false
  | CallRemove key' => String.eqb key' key
  | CallSet key' _ _ => String.eqb key' key
  end.

(** No document of the store was last accessed after [bound]. *)
Definition stamped_by (bound : DateTime) (c : t) : Prop :=
  Forall (fun entry => CacheEntry.LastAccessTime entry <= bound) c.

(** The entry [Set] builds. *)
Definition fresh_entry (now : DateTime) (key : string) (value : bytes)
    (options : DistributedCacheEntryOptions.t) : CacheEntry.t :=
  CacheEntry.mk key value
    (option_map UtcDateTime
       (DistributedCacheEntryOptions.AbsoluteExpiration options))
    (DistributedCacheEntryOptions.SlidingExpiration options) now.

(** The key a call is about. *)
Definition key_of (call : Call) : string :=
  match call with
  | CallGet key | CallRefresh key | CallRemove key | CallSet key _ _ => key
  end.

(** ** Notions of the specification *)

(** The deadlines of an entry, as the data model describes them; the adapter
    never computes them. *)
Definition past_absolute (now : DateTime) (entry : CacheEntry.t) : bool :=
  match CacheEntry.AbsoluteExpiration entry with
  | Some deadline => deadline <? now
  | None => false
  end.

Definition past_sliding (now : DateTime) (entry : CacheEntry.t) : bool :=
  match CacheEntry.SlidingExpiration entry with
  | Some d => CacheEntry.LastAccessTime entry + d <? now
  | None => false
  end.

(** Calls that create or overwrite the document under [key]. *)
Definition sets (key : string) (call : Call) : bool :=
  match call with
  | CallSet key' _ _ => String.eqb key' key
  | _ => false
  end.

(** Two entries that differ at most in their last access time. *)
Definition same_payload (e e' : CacheEntry.t) : Prop :=
  CacheEntry.Id e' = CacheEntry.Id e /\
  CacheEntry.Value e' = CacheEntry.Value e /\
  CacheEntry.AbsoluteExpiration e' = CacheEntry.AbsoluteExpiration e /\
  CacheEntry.SlidingExpiration e' = CacheEntry.SlidingExpiration e.

(** The history made of one [Get] of [key] at each of the given times. *)
Definition gets (key : string) (times : list DateTime)
  : list (DateTime * Call) :=
  map (fun now => (now, CallGet key)) times.

(** The last access time on file for [key], or [bound] when there is no
    document. *)
Definition floor (key : string) (bound : DateTime) (c : t) : DateTime :=
  match document key c with
  | Some entry => CacheEntry.LastAccessTime entry
  | None => bound
  end.

(** ** A session, run

    A session entry with a sliding expiration of twenty (time units) is
    set, read, refreshed and removed. *)

Definition hello : bytes := [x68; x65; x6c; x6c; x6f].

Definition session : state t (option bytes * t * t * option bytes) :=
  Set_ 100 "session:abc" hello
    (DistributedCacheEntryOptions.mk None None (Some 20)) ;;
  read <- Get 105 "session:abc" ;;
  after_get <- get ;;
  Refresh 110 "session:abc" ;;
  after_refresh <- get ;;
  Remove "session:abc" ;;
  gone <- Get 111 "session:abc" ;;
  ret (read, after_get, after_refresh, gone).

(** ** The two driver calls of [Get]

    [Get] reads the document and, for an entry with a sliding expiration,
    writes it back; other callers may reach the store between the two. *)

(** The read: [Find(x => x.Id == key).FirstOrDefault()]. *)
Definition Get_read (key : string) : state t (option CacheEntry.t) :=
  found <- Find (by_Id key) ;; ret (FirstOrDefault found).

(** The rest of [Get], given the entry that was read. *)
Definition Get_write (UtcNow : DateTime) (key : string)
    (read : option CacheEntry.t) : state t (option bytes) :=
  match read with
  | None => ret None
  | Some entry =>
      match CacheEntry.SlidingExpiration entry with
      | Some _ =>
          let entry := CacheEntry.set_LastAccessTime UtcNow entry in
          ReplaceOne (by_Id key) entry (mkReplaceOptions false) ;;
          ret (Some (CacheEntry.Value entry))
      | None => ret (Some (CacheEntry.Value entry))
      end
  end.

(** ** The store as a map from keys to documents *)

(** The touch of [Get] and [Refresh] on the entry read. *)
Definition touch (now : DateTime) (entry : CacheEntry.t) : CacheEntry.t :=
  match CacheEntry.SlidingExpiration entry with
  | Some _ => CacheEntry.set_LastAccessTime now entry
  | None => entry
  end.

(** What a call does to the document under the key it is about. *)
Definition effect (now : DateTime) (call : Call)
    (d : option CacheEntry.t) : option CacheEntry.t :=
  match call with
  | CallGet _ | CallRefresh _ => option_map (touch now) d
  | CallRemove _ => None
  | CallSet key value options => Some (fresh_entry now key value options)
  end.

(** The document under [key] after a history, computed from the document under
    [key] before it and the calls about [key] alone. *)
Definition history_effect (key : string) (h : list (DateTime * Call))
    (d : option CacheEntry.t) : option CacheEntry.t :=
  fold_left
    (fun d tc => if String.eqb (key_of (snd tc)) key
                 then effect (fst tc) (snd tc) d else d)
    h d.

(** Two readings of a key that agree on whether there is a document and,
    when there is one, on everything but its last access time. *)
Definition same_reading (d d' : option CacheEntry.t) : Prop :=
  match d, d' with
  | Some e, Some e' => same_payload e e'
  | None, None => True
  | _, _ => False
  end.

(** ** The cancellable variants

    [GetAsync], [RefreshAsync], [RemoveAsync] and [SetAsync] pass a
    cancellation token to every driver call they await.  A token, once
    cancelled, stays cancelled.  The driver holds the token for the whole of
    a call: a call that finds its token cancelled before it is sent throws
    [OperationCanceledException] without reaching the store, and a call
    whose token is cancelled while it is in flight may throw after the store
    has applied it. *)
Module Async.

Inductive Exception := OperationCanceledException.

(** The store together with the number of driver calls completed so far. *)
Record World := mkWorld { store : t; driver_calls : nat }.

(** When a token is cancelled: [calls_before] driver calls complete
    untroubled, and the next one throws, either before it is sent
    ([in_flight = false]) or in flight, once the store has applied it
    ([in_flight = true]).  Every later driver call finds the token cancelled
    before it is sent. *)
Record Cancellation := mkCancellation {
  calls_before : nat;
  in_flight : bool
}.

(** [None] is the token that is never cancelled ([default],
    [CancellationToken.None]). *)
Definition CancellationToken := option Cancellation.

(** The token is cancelled by the end of the driver call that follows
    [calls] completed ones. *)
Definition IsCancellationRequested (token : CancellationToken)
    (calls : nat) : bool :=
  match token with
  | Some cancellation => Nat.leb (calls_before cancellation) calls
  | None => false
  end.

(** The driver call that follows [calls] completed ones is the one that the
    cancellation catches in flight, after the store has applied it. *)
Definition applied_in_flight (token : CancellationToken)
    (calls : nat) : bool :=
  match token with
  | Some cancellation =>
      in_flight cancellation && Nat.eqb (calls_before cancellation) calls
  | None => false
  end.

(** An awaited computation: it ends in a value or in an exception. *)
Definition Task (A : Type) : Type := World -> (Exception + A) * World.

#[global] Instance Monad_Task : Monad Task := {
  ret := fun A (a : A) w => (inr a, w);
  bind := fun A B (m : Task A) (k : A -> Task B) w =>
            match m w with
            | (inr a, w') => k a w'
            | (inl e, w') => (inl e, w')
            end
}.

(** One driver call.  With the token not cancelled it is the blocking
    operation [op].  With the token cancelled it throws, and the store is
    left as it was unless the cancellation caught the call in flight, in
    which case the store has applied [op]. *)
Definition driver_call {A} (token : CancellationToken) (op : state t A)
  : Task A :=
  fun w =>
    let applied :=
      mkWorld (snd (runState op (store w))) (S (driver_calls w)) in
    if IsCancellationRequested token (driver_calls w)
    then (inl OperationCanceledException,
          if applied_in_flight token (driver_calls w) then applied else w)
    else (inr (fst (runState op (store w))), applied).

Definition FirstOrDefaultAsync (query : state t (list CacheEntry.t))
    (token : CancellationToken) : Task (option CacheEntry.t) :=
  driver_call token (found <- query ;; ret (FirstOrDefault found)).

Definition ReplaceOneAsync (f : filter_t) (replacement : CacheEntry.t)
    (options : ReplaceOptions) (token : CancellationToken) : Task unit :=
  driver_call token (ReplaceOne f replacement options).

Definition DeleteOneAsync (f : filter_t) (token : CancellationToken)
  : Task unit :=
  driver_call token (DeleteOne f).

Definition GetAsync (UtcNow : DateTime) (key : string)
    (token : CancellationToken) : Task (option bytes) :=
  entry <- FirstOrDefaultAsync (Find (by_Id key)) token ;;
  match entry with
  | None => ret None
  | Some entry =>
      match CacheEntry.SlidingExpiration entry with
      | Some _ =>
          let entry := CacheEntry.set_LastAccessTime UtcNow entry in
          ReplaceOneAsync (by_Id key) entry (mkReplaceOptions false) token ;;
          ret (Some (CacheEntry.Value entry))
      | None => ret (Some (CacheEntry.Value entry))
      end
  end.

Definition RefreshAsync (UtcNow : DateTime) (key : string)
    (token : CancellationToken) : Task unit :=
  entry <- FirstOrDefaultAsync (Find (by_Id key)) token ;;
  match entry with
  | Some entry =>
      match CacheEntry.SlidingExpiration entry with
      | Some _ =>
          let entry := CacheEntry.set_LastAccessTime UtcNow entry in
          ReplaceOneAsync (by_Id key) entry (mkReplaceOptions false) token
      | None => ret tt
      end
  | None => ret tt
  end.

Definition RemoveAsync (key : string) (token : CancellationToken)
  : Task unit :=
  DeleteOneAsync (by_Id key) token.

Definition SetAsync (UtcNow : DateTime) (key : string) (value : bytes)
    (options : DistributedCacheEntryOptions.t) (token : CancellationToken)
  : Task unit :=
  let entry :=
    CacheEntry.mk key value
      (option_map UtcDateTime
         (DistributedCacheEntryOptions.AbsoluteExpiration options))
      (DistributedCacheEntryOptions.SlidingExpiration options)
      UtcNow in
  ReplaceOneAsync (by_Id key) entry (mkReplaceOptions true) token.

(** The awaited computation ends, from [w], in the value and in the store
    that the blocking computation produces from the store of [w]. *)
Definition same_outcome {A} (task : Task A) (blocking : state t A)
    (w : World) : Prop :=
  fst (task w) = inr (fst (runState blocking (store w))) /\
  store (snd (task w)) = snd (runState blocking (store w)).

End Async.

(** * Proofs *)

(** ** What each method computes *)

Section RunEquations.
Variables (now : DateTime) (key : string) (c : t).

Lemma run_Get :
  runState (Get now key) c =
  match document key c with
  | None => (None, c)
  | Some entry =>
      match CacheEntry.SlidingExpiration entry with
      | Some _ =>
          (Some (CacheEntry.Value entry),
           replaced key (CacheEntry.set_LastAccessTime now entry) c)
      | None => (Some (CacheEntry.Value entry), c)
      end
  end.
Proof.
  unfold Get, document, replaced, Find, ReplaceOne. simpl.
  destruct (FirstOrDefault (filter (by_Id key) c)) as [entry|]; [|reflexivity].
  destruct (CacheEntry.SlidingExpiration entry); [|reflexivity].
  simpl.
  destruct (replace_first _ _ c); reflexivity.
Qed.

Lemma run_Refresh :
  runState (Refresh now key) c =
  match document key c with
  | None => (tt, c)
  | Some entry =>
      match CacheEntry.SlidingExpiration entry with
      | Some _ => (tt, replaced key (CacheEntry.set_LastAccessTime now entry) c)
      | None => (tt, c)
      end
  end.
Proof.
  unfold Refresh, document, replaced, Find, ReplaceOne. simpl.
  destruct (FirstOrDefault (filter (by_Id key) c)) as [entry|]; [|reflexivity].
  destruct (CacheEntry.SlidingExpiration entry); [|reflexivity].
  simpl.
  destruct (replace_first _ _ c); reflexivity.
Qed.

Lemma run_Remove :
  runState (Remove key) c = (tt, delete_first (by_Id key) c).
Proof. reflexivity. Qed.

Lemma run_Set value options :
  runState (Set_ now key value options) c =
  let entry :=
    CacheEntry.mk key value
      (option_map UtcDateTime
         (DistributedCacheEntryOptions.AbsoluteExpiration options))
      (DistributedCacheEntryOptions.SlidingExpiration options) now in
  (tt, match replace_first (by_Id key) entry c with
       | Some c' => c'
       | None => c ++ [entry]
       end).
Proof.
  unfold Set_, ReplaceOne. simpl.
  destruct (replace_first _ _ c); reflexivity.
Qed.
End RunEquations.

(** ** Facts about the collection operations *)

Lemma by_Id_true key x : by_Id key x = true <-> CacheEntry.Id x = key.
Proof. unfold by_Id. apply String.eqb_eq. Qed.

Lemma by_Id_false key x : by_Id key x = false <-> CacheEntry.Id x <> key.
Proof. unfold by_Id. apply String.eqb_neq. Qed.

Lemma by_Id_other key key' x :
  key' <> key -> by_Id key x = true -> by_Id key' x = false.
Proof.
  intros Hne Hx. apply by_Id_true in Hx. apply by_Id_false. congruence.
Qed.

Lemma document_cons key x c :
  document key (x :: c) = if by_Id key x then Some x else document key c.
Proof. unfold document. simpl. destruct (by_Id key x); reflexivity. Qed.

Lemma document_Id key c entry :
  document key c = Some entry -> CacheEntry.Id entry = key.
Proof.
  induction c as [|x c IH]; [discriminate|].
  rewrite document_cons. destruct (by_Id key x) eqn:Hx; [|exact IH].
  intros [= <-]. now apply by_Id_true.
Qed.

Lemma document_In key c entry : document key c = Some entry -> In entry c.
Proof.
  induction c as [|x c IH]; [discriminate|].
  rewrite document_cons. destruct (by_Id key x).
  - intros [= <-]. now left.
  - intros H. right. auto.
Qed.

Lemma document_absent key c :
  document key c = None <-> ~ In key (map CacheEntry.Id c).
Proof.
  induction c as [|x c IH]; simpl.
  - split; [intros _ []|reflexivity].
  - rewrite document_cons. destruct (by_Id key x) eqn:Hx.
    + apply by_Id_true in Hx. split; [discriminate|]. intros H. elim H. now left.
    + apply by_Id_false in Hx. rewrite IH. split.
      * intros H [H'|H']; [congruence|auto].
      * intros H H'. apply H. now right.
Qed.

(** Case analysis on whether the head of the store is filed under [key]. *)
Ltac head_case key x :=
  let Hx := fresh "Hx" in
  destruct (by_Id key x) eqn:Hx; simpl; rewrite ?Hx; simpl; rewrite ?Hx; simpl.

Section Replace.
Variables (key : string) (r : CacheEntry.t).
Hypothesis r_Id : CacheEntry.Id r = key.

Lemma replace_first_absent c :
  document key c = None -> replace_first (by_Id key) r c = None.
Proof.
  induction c as [|x c IH]; [reflexivity|].
  rewrite document_cons. head_case key x; [discriminate|].
  intros H. now rewrite IH.
Qed.

Lemma replace_first_present c entry :
  document key c = Some entry ->
  exists c', replace_first (by_Id key) r c = Some c'.
Proof.
  induction c as [|x c IH]; [discriminate|].
  rewrite document_cons. head_case key x; [eauto|].
  intros H. destruct (IH H) as [c' ->]. eauto.
Qed.

Lemma replaced_absent c : document key c = None -> replaced key r c = c.
Proof. intros H. unfold replaced. now rewrite replace_first_absent. Qed.

Lemma replaced_cons x c :
  replaced key r (x :: c) =
  if by_Id key x then r :: c else x :: replaced key r c.
Proof.
  unfold replaced. simpl. destruct (by_Id key x); [reflexivity|].
  destruct (replace_first (by_Id key) r c); reflexivity.
Qed.

Lemma upserted_cons x c :
  upserted key r (x :: c) =
  if by_Id key x then r :: c else x :: upserted key r c.
Proof.
  unfold upserted. simpl. destruct (by_Id key x); [reflexivity|].
  destruct (replace_first (by_Id key) r c); reflexivity.
Qed.

Lemma upserted_present c entry :
  document key c = Some entry -> upserted key r c = replaced key r c.
Proof.
  intros H. unfold upserted, replaced.
  destruct (replace_first_present c entry H) as [c' ->]. reflexivity.
Qed.

Lemma upserted_absent c :
  document key c = None -> upserted key r c = c ++ [r].
Proof. intros H. unfold upserted. now rewrite replace_first_absent. Qed.

Lemma r_by_Id : by_Id key r = true.
Proof. now apply by_Id_true. Qed.

Lemma document_replaced c entry :
  document key c = Some entry -> document key (replaced key r c) = Some r.
Proof.
  induction c as [|x c IH]; [discriminate|].
  rewrite document_cons, replaced_cons. head_case key x.
  - intros _. now rewrite document_cons, r_by_Id.
  - intros H. rewrite document_cons, Hx. auto.
Qed.

Lemma document_upserted c : document key (upserted key r c) = Some r.
Proof.
  induction c as [|x c IH].
  - unfold upserted. simpl. now rewrite document_cons, r_by_Id.
  - rewrite upserted_cons. head_case key x.
    + now rewrite document_cons, r_by_Id.
    + now rewrite document_cons, Hx.
Qed.

Lemma others_replaced c : others key (replaced key r c) = others key c.
Proof.
  induction c as [|x c IH]; [reflexivity|].
  rewrite replaced_cons. unfold others in *. head_case key x.
  - now rewrite r_by_Id.
  - now rewrite IH.
Qed.

Lemma others_upserted c : others key (upserted key r c) = others key c.
Proof.
  induction c as [|x c IH].
  - unfold upserted, others. simpl. now rewrite r_by_Id.
  - rewrite upserted_cons. unfold others in *. head_case key x.
    + now rewrite r_by_Id.
    + now rewrite IH.
Qed.

Lemma document_replaced_other key' c :
  key' <> key -> document key' (replaced key r c) = document key' c.
Proof.
  intros Hne. induction c as [|x c IH]; [reflexivity|].
  rewrite replaced_cons. head_case key x.
  - rewrite !document_cons.
    now rewrite (by_Id_other key key' r Hne r_by_Id),
                (by_Id_other key key' x Hne Hx).
  - rewrite !document_cons. now rewrite IH.
Qed.

Lemma document_upserted_other key' c :
  key' <> key -> document key' (upserted key r c) = document key' c.
Proof.
  intros Hne. induction c as [|x c IH].
  - unfold upserted. simpl. rewrite document_cons.
    now rewrite (by_Id_other key key' r Hne r_by_Id).
  - rewrite upserted_cons. head_case key x.
    + rewrite !document_cons.
      now rewrite (by_Id_other key key' r Hne r_by_Id),
                  (by_Id_other key key' x Hne Hx).
    + rewrite !document_cons. now rewrite IH.
Qed.

Lemma Ids_replaced c :
  map CacheEntry.Id (replaced key r c) = map CacheEntry.Id c.
Proof.
  induction c as [|x c IH]; [reflexivity|].
  rewrite replaced_cons. head_case key x.
  - apply by_Id_true in Hx. congruence.
  - now rewrite IH.
Qed.

Lemma UniqueIds_replaced c : UniqueIds c -> UniqueIds (replaced key r c).
Proof. unfold UniqueIds. now rewrite Ids_replaced. Qed.

Lemma UniqueIds_upserted c : UniqueIds c -> UniqueIds (upserted key r c).
Proof.
  intros H. destruct (document key c) as [entry|] eqn:Hd.
  - rewrite (upserted_present c entry Hd). now apply UniqueIds_replaced.
  - rewrite (upserted_absent c Hd). unfold UniqueIds in *.
    rewrite map_app. simpl. apply NoDup_app_remove_l with (l := []).
    simpl. apply NoDup_app; [exact H|repeat constructor; auto|].
    intros a Ha [<-|[]]. apply document_absent in Hd. apply Hd.
    now rewrite <- r_Id.
Qed.
End Replace.

Section Delete.
Variable key : string.

Lemma delete_first_absent c :
  document key c = None -> delete_first (by_Id key) c = c.
Proof.
  induction c as [|x c IH]; [reflexivity|].
  rewrite document_cons. head_case key x; [discriminate|].
  intros H. now rewrite IH.
Qed.

Lemma others_delete_first c :
  others key (delete_first (by_Id key) c) = others key c.
Proof.
  induction c as [|x c IH]; [reflexivity|].
  unfold others in *. head_case key x; [reflexivity|]. now rewrite IH.
Qed.

Lemma document_delete_first_other key' c :
  key' <> key ->
  document key' (delete_first (by_Id key) c) = document key' c.
Proof.
  intros Hne. induction c as [|x c IH]; [reflexivity|].
  head_case key x.
  - rewrite document_cons. now rewrite (by_Id_other key key' x Hne Hx).
  - rewrite !document_cons. now rewrite IH.
Qed.

Lemma In_delete_first entry c :
  In entry (delete_first (by_Id key) c) -> In entry c.
Proof.
  induction c as [|x c IH]; [easy|].
  head_case key x; [intros H; now right|]. intros [->|H]; [now left|right; now apply IH].
Qed.

Lemma Ids_delete_first id c :
  In id (map CacheEntry.Id (delete_first (by_Id key) c)) ->
  In id (map CacheEntry.Id c).
Proof.
  rewrite !in_map_iff. intros (entry & <- & H).
  exists entry. split; [reflexivity|]. now apply In_delete_first.
Qed.

Lemma UniqueIds_delete_first c :
  UniqueIds c -> UniqueIds (delete_first (by_Id key) c).
Proof.
  unfold UniqueIds. induction c as [|x c IH]; [easy|].
  simpl. intros H. inversion H as [|? ? Hx' Hc]; subst.
  head_case key x; [exact Hc|].
  constructor; [|auto]. intros Hin. apply Hx'. now apply Ids_delete_first.
Qed.

(** With unique [Id]s, deleting the first document under [key] leaves none. *)
Lemma document_delete_first c :
  UniqueIds c -> document key (delete_first (by_Id key) c) = None.
Proof.
  unfold UniqueIds. induction c as [|x c IH]; [reflexivity|].
  simpl. intros H. inversion H as [|? ? Hx' Hc]; subst.
  head_case key x.
  - apply document_absent. apply by_Id_true in Hx. now rewrite <- Hx.
  - rewrite document_cons, Hx. auto.
Qed.
End Delete.

(** An upsert leaves no trace of an earlier upsert under the same key. *)
Lemma upserted_upserted key r1 r2 c :
  CacheEntry.Id r1 = key ->
  upserted key r2 (upserted key r1 c) = upserted key r2 c.
Proof.
  intros H1. induction c as [|x c IH].
  - unfold upserted. simpl. now rewrite (r_by_Id key r1 H1).
  - rewrite !upserted_cons. head_case key x.
    + now rewrite upserted_cons, (r_by_Id key r1 H1).
    + now rewrite upserted_cons, Hx, IH.
Qed.

(** ** Single calls *)

Lemma exec_Set now key value options c :
  exec now (CallSet key value options) c =
  upserted key (fresh_entry now key value options) c.
Proof. unfold exec. now rewrite run_Set. Qed.

Lemma exec_Remove now key c :
  exec now (CallRemove key) c = delete_first (by_Id key) c.
Proof. reflexivity. Qed.

Lemma exec_Get now key c :
  exec now (CallGet key) c = snd (runState (Get now key) c).
Proof. reflexivity. Qed.

Lemma exec_Refresh_Get now key c :
  exec now (CallRefresh key) c = exec now (CallGet key) c.
Proof.
  unfold exec. rewrite run_Get, run_Refresh.
  destruct (document key c) as [entry|]; [|reflexivity].
  destruct (CacheEntry.SlidingExpiration entry); reflexivity.
Qed.

(** The store after a touching call, by cases on the document read. *)
Lemma exec_Get_cases now key c :
  (document key c = None /\ exec now (CallGet key) c = c) \/
  (exists entry, document key c = Some entry /\
     CacheEntry.SlidingExpiration entry = None /\
     exec now (CallGet key) c = c) \/
  (exists entry d, document key c = Some entry /\
     CacheEntry.SlidingExpiration entry = Some d /\
     exec now (CallGet key) c =
     replaced key (CacheEntry.set_LastAccessTime now entry) c).
Proof.
  unfold exec. rewrite run_Get.
  destruct (document key c) as [entry|] eqn:Hd; [|now left].
  right. destruct (CacheEntry.SlidingExpiration entry) as [d|] eqn:Hs.
  - right. exists entry, d. auto.
  - left. exists entry. auto.
Qed.

(** ** Running sequences of calls *)

Lemma run_bind {A B} (m : state t A) (k : A -> state t B) (c : t) :
  runState (bind m k) c =
  runState (k (fst (runState m c))) (snd (runState m c)).
Proof. simpl. destruct (runState m c). reflexivity. Qed.

Lemma snd_run_Set now key value options c :
  snd (runState (Set_ now key value options) c) =
  upserted key (fresh_entry now key value options) c.
Proof. now rewrite run_Set. Qed.

Lemma fst_run_Get now key c :
  fst (runState (Get now key) c) =
  option_map CacheEntry.Value (document key c).
Proof.
  rewrite run_Get. destruct (document key c) as [entry|]; [|reflexivity].
  destruct (CacheEntry.SlidingExpiration entry); reflexivity.
Qed.

(** A call about one key leaves the document under any other key alone. *)
Lemma document_exec_other now call key c :
  key <> key_of call -> document key (exec now call c) = document key c.
Proof.
  intros Hne. destruct call as [k|k|k|k v o]; simpl in Hne.
  - destruct (exec_Get_cases now k c)
      as [[_ ->]|[(e & _ & _ & ->)|(e & d & He & _ & ->)]]; try reflexivity.
    apply document_replaced_other; [|exact Hne].
    simpl. now apply document_Id with c.
  - rewrite exec_Refresh_Get.
    destruct (exec_Get_cases now k c)
      as [[_ ->]|[(e & _ & _ & ->)|(e & d & He & _ & ->)]]; try reflexivity.
    apply document_replaced_other; [|exact Hne].
    simpl. now apply document_Id with c.
  - rewrite exec_Remove. now apply document_delete_first_other.
  - rewrite exec_Set. now apply document_upserted_other.
Qed.

(** Every call keeps the [Id]s of the store unique. *)
Lemma UniqueIds_exec now call c : UniqueIds c -> UniqueIds (exec now call c).
Proof.
  intros H. destruct call as [k|k|k|k v o].
  - destruct (exec_Get_cases now k c)
      as [[_ ->]|[(e & _ & _ & ->)|(e & d & He & _ & ->)]]; try assumption.
    apply UniqueIds_replaced; [|exact H]. simpl. now apply document_Id with c.
  - rewrite exec_Refresh_Get.
    destruct (exec_Get_cases now k c)
      as [[_ ->]|[(e & _ & _ & ->)|(e & d & He & _ & ->)]]; try assumption.
    apply UniqueIds_replaced; [|exact H]. simpl. now apply document_Id with c.
  - rewrite exec_Remove. now apply UniqueIds_delete_first.
  - rewrite exec_Set. now apply UniqueIds_upserted.
Qed.

Lemma UniqueIds_run h : forall c, UniqueIds c -> UniqueIds (run h c).
Proof.
  induction h as [|[now call] h IH]; intros c H; simpl; [exact H|].
  apply IH. now apply UniqueIds_exec.
Qed.

Lemma UniqueIds_empty : UniqueIds [].
Proof. constructor. Qed.

(** ** The session, run *)

Example session_run :
  runState session [] =
  ((Some hello,
    [CacheEntry.mk "session:abc" hello None (Some 20) 105],
    [CacheEntry.mk "session:abc" hello None (Some 20) 110],
    None), []).
Proof. reflexivity. Qed.

(** Unique [Id]s are what makes one [Remove] enough: in a list of documents
    that repeats an [Id], which no call of the adapter ever produces, a
    second document would surface. *)
Remark Remove_needs_UniqueIds :
  let twice := [CacheEntry.mk "k" [x01] None None 1;
                CacheEntry.mk "k" [x02] None None 2] in
  ~ UniqueIds twice /\
  fst (runState (Remove "k" ;; Get 3 "k") twice) = Some [x02].
Proof.
  split; [|reflexivity].
  intros H. inversion H as [|? ? Hin _]. apply Hin. now left.
Qed.

(** ** The properties of the specification *)

(** C1. For every key and value, [Set] with no expiration options followed
    immediately by [Get] of the same key returns the value that was set. *)
Theorem set_then_get (t0 now : DateTime) (key : string) (value : bytes) (c : t) :
  fst (runState (Set_ t0 key value DistributedCacheEntryOptions.empty ;;
                 Get now key) c) = Some value.
Proof.
  rewrite run_bind, fst_run_Get, snd_run_Set.
  now rewrite document_upserted.
Qed.

(** C2. [Get] makes no expiration check: whenever a document exists under the
    key, [Get] returns its value whatever the clock reads, so also when the
    clock is past the absolute expiration or past the last access time plus
    the sliding expiration. *)
Theorem get_ignores_expiration (now : DateTime) (key : string) (c : t)
    (entry : CacheEntry.t) :
  document key c = Some entry ->
  fst (runState (Get now key) c) = Some (CacheEntry.Value entry).
Proof. intros H. now rewrite fst_run_Get, H. Qed.

(** An entry past both of its deadlines is still returned. *)
Lemma get_ignores_expiration_witness :
  let entry := CacheEntry.mk "k" [x2a] (Some 5) (Some 3) 1 in
  past_absolute 100 entry = true /\ past_sliding 100 entry = true /\
  fst (runState (Get 100 "k") [entry]) = Some [x2a].
Proof.
  simpl. split; [reflexivity|]. split; [reflexivity|].
  apply (get_ignores_expiration 100 "k"
           [CacheEntry.mk "k" [x2a] (Some 5) (Some 3) 1]
           (CacheEntry.mk "k" [x2a] (Some 5) (Some 3) 1)).
  reflexivity.
Defined.

(** C4. Two [Set]s of the same key followed by [Get]: the store is the one the
    second [Set] alone would have produced, the document under the key is
    exactly the entry the second [Set] built (every field, the sliding
    expiration and the last access time included), and [Get] returns the
    second value, not the first. *)
Theorem upsert_overwrite (t1 t2 now : DateTime) (key : string)
    (v1 v2 : bytes) (o1 o2 : DistributedCacheEntryOptions.t) (c : t) :
  let c2 := snd (runState (Set_ t1 key v1 o1 ;; Set_ t2 key v2 o2) c) in
  c2 = snd (runState (Set_ t2 key v2 o2) c) /\
  document key c2 = Some (fresh_entry t2 key v2 o2) /\
  fst (runState (Get now key) c2) = Some v2 /\
  (v1 <> v2 -> fst (runState (Get now key) c2) <> Some v1).
Proof.
  cbv zeta. rewrite run_bind, !snd_run_Set.
  rewrite upserted_upserted by reflexivity.
  rewrite fst_run_Get, document_upserted by reflexivity.
  repeat split. simpl. congruence.
Qed.

Lemma upsert_overwrite_witness :
  let sliding := DistributedCacheEntryOptions.mk None None (Some 20) in
  let c2 := snd (runState (Set_ 1 "k" [x01] sliding ;;
                           Set_ 2 "k" [x02] DistributedCacheEntryOptions.empty)
                   []) in
  document "k" c2 = Some (CacheEntry.mk "k" [x02] None None 2) /\
  fst (runState (Get 3 "k") c2) <> Some [x01].
Proof.
  pose proof (upsert_overwrite 1 2 3 "k" [x01] [x02]
                (DistributedCacheEntryOptions.mk None None (Some 20))
                DistributedCacheEntryOptions.empty []) as (_ & Hd & _ & Hne).
  split; [exact Hd|]. apply Hne. discriminate.
Defined.

(** A call that is not a [Set] of [key] does not create a document under it. *)
Lemma document_exec_absent now call key c :
  sets key call = false ->
  document key c = None -> document key (exec now call c) = None.
Proof.
  intros Hs Hd. destruct (String.eqb_spec (key_of call) key) as [Heq|Hne].
  - destruct call as [k|k|k|k v o]; simpl in Heq, Hs; subst k.
    + destruct (exec_Get_cases now key c)
        as [[_ ->]|[(e & He & _)|(e & d & He & _)]]; congruence.
    + rewrite exec_Refresh_Get.
      destruct (exec_Get_cases now key c)
        as [[_ ->]|[(e & He & _)|(e & d & He & _)]]; congruence.
    + rewrite exec_Remove, delete_first_absent; assumption.
    + now rewrite String.eqb_refl in Hs.
  - rewrite document_exec_other; [exact Hd|congruence].
Qed.

Lemma document_run_never_set key h :
  Forall (fun tc => sets key (snd tc) = false) h ->
  forall c, document key c = None -> document key (run h c) = None.
Proof.
  induction 1 as [|[now call] h Hs _ IH]; intros c Hd; simpl; [exact Hd|].
  apply IH. now apply document_exec_absent.
Qed.

(** C5. [Get] of a key under which no document exists returns not-found
    ([None]) and leaves the store as it is; this is the case for a key that
    no call of the history of the store has ever set, and for a key that has
    just been removed.  Not-found differs from an empty value: after [Set]
    of the empty byte sequence, [Get] returns that sequence. *)
Theorem get_not_found (t0 now : DateTime) (key : string) (c : t) :
  (document key c = None -> runState (Get now key) c = (None, c)) /\
  (forall h, Forall (fun tc => sets key (snd tc) = false) h ->
     fst (runState (Get now key) (run h [])) = None) /\
  (UniqueIds c -> fst (runState (Remove key ;; Get now key) c) = None) /\
  fst (runState (Set_ t0 key [] DistributedCacheEntryOptions.empty ;;
                 Get now key) c) = Some [] /\
  Some (@nil byte) <> None.
Proof.
  repeat split.
  - intros H. now rewrite run_Get, H.
  - intros h Hh. rewrite fst_run_Get.
    now rewrite (document_run_never_set key h Hh []).
  - intros H. rewrite run_bind, fst_run_Get, run_Remove. simpl snd.
    now rewrite document_delete_first.
  - rewrite run_bind, fst_run_Get, snd_run_Set.
    now rewrite document_upserted.
  - discriminate.
Qed.

Lemma get_not_found_witness :
  let c := [CacheEntry.mk "a" [x01] None None 1] in
  runState (Get 5 "b") c = (None, c) /\
  fst (runState (Get 5 "b")
         (run [(2, CallSet "a" [x02] DistributedCacheEntryOptions.empty);
               (3, CallGet "b"); (4, CallRemove "b")] [])) = None /\
  fst (runState (Remove "a" ;; Get 5 "a") c) = None.
Proof.
  pose proof (get_not_found 0 5 "b" [CacheEntry.mk "a" [x01] None None 1])
    as (Habsent & Hnever & _).
  pose proof (get_not_found 0 5 "a" [CacheEntry.mk "a" [x01] None None 1])
    as (_ & _ & Hremoved & _).
  split; [apply Habsent; reflexivity|]. split.
  - apply Hnever. repeat constructor.
  - apply Hremoved. repeat constructor. simpl. tauto.
Defined.

(** C8. [Remove] of a key under which no document exists returns normally and
    leaves the store unchanged; in a store with unique [Id]s, a second
    [Remove] after a first one changes nothing more, so [Remove] is
    idempotent. *)
Theorem remove_idempotent (key : string) (c : t) :
  (document key c = None -> runState (Remove key) c = (tt, c)) /\
  (UniqueIds c ->
   runState (Remove key) (snd (runState (Remove key) c)) =
     (tt, snd (runState (Remove key) c)) /\
   runState (Remove key ;; Remove key) c = runState (Remove key) c).
Proof.
  split.
  - intros H. now rewrite run_Remove, delete_first_absent.
  - intros H. rewrite run_bind, !run_Remove. simpl snd.
    rewrite delete_first_absent by now apply document_delete_first.
    split; reflexivity.
Qed.

Lemma remove_idempotent_witness :
  let c := [CacheEntry.mk "a" [x01] None None 1;
            CacheEntry.mk "b" [x02] None (Some 7) 2] in
  runState (Remove "z") c = (tt, c) /\
  runState (Remove "a" ;; Remove "a") c = runState (Remove "a") c.
Proof.
  pose proof (remove_idempotent "z"
                [CacheEntry.mk "a" [x01] None None 1;
                 CacheEntry.mk "b" [x02] None (Some 7) 2]) as (Habsent & _).
  pose proof (remove_idempotent "a"
                [CacheEntry.mk "a" [x01] None None 1;
                 CacheEntry.mk "b" [x02] None (Some 7) 2]) as (_ & Htwice).
  split; [apply Habsent; reflexivity|].
  apply Htwice. repeat constructor; simpl; intuition discriminate.
Defined.

Lemma same_payload_refl e : same_payload e e.
Proof. repeat split. Qed.

Lemma same_payload_trans e1 e2 e3 :
  same_payload e1 e2 -> same_payload e2 e3 -> same_payload e1 e3.
Proof. unfold same_payload. intuition congruence. Qed.

Lemma same_payload_touch now e :
  same_payload e (CacheEntry.set_LastAccessTime now e).
Proof. repeat split. Qed.

(** What a touching call does to the document it is about. *)
Lemma document_exec_Get now key c entry :
  document key c = Some entry ->
  document key (exec now (CallGet key) c) =
  Some (match CacheEntry.SlidingExpiration entry with
        | Some _ => CacheEntry.set_LastAccessTime now entry
        | None => entry
        end).
Proof.
  intros Hd.
  destruct (exec_Get_cases now key c)
    as [[He _]|[(e & He & Hs & ->)|(e & d & He & Hs & ->)]];
    rewrite Hd in He; try discriminate; injection He as <-; rewrite Hs.
  - exact Hd.
  - apply document_replaced with entry; [|exact Hd].
    simpl. now apply document_Id with c.
Qed.

(** C6. [Refresh] of a key whose document has a sliding expiration stores the
    same document with its last access time set to the current time; when no
    document exists under the key, or the document has no sliding
    expiration, the store is left exactly as it was; [Refresh] returns
    nothing. *)
Theorem refresh_touches_sliding (now : DateTime) (key : string) (c : t) :
  (forall entry d,
     document key c = Some entry ->
     CacheEntry.SlidingExpiration entry = Some d ->
     snd (runState (Refresh now key) c) =
       replaced key (CacheEntry.set_LastAccessTime now entry) c /\
     document key (snd (runState (Refresh now key) c)) =
       Some (CacheEntry.mk (CacheEntry.Id entry) (CacheEntry.Value entry)
               (CacheEntry.AbsoluteExpiration entry)
               (CacheEntry.SlidingExpiration entry) now)) /\
  (document key c = None -> snd (runState (Refresh now key) c) = c) /\
  (forall entry,
     document key c = Some entry ->
     CacheEntry.SlidingExpiration entry = None ->
     snd (runState (Refresh now key) c) = c) /\
  fst (runState (Refresh now key) c) = tt.
Proof.
  split; [|repeat split].
  - intros entry d Hd Hs. split.
    + now rewrite run_Refresh, Hd, Hs.
    + change (snd (runState (Refresh now key) c))
        with (exec now (CallRefresh key) c).
      rewrite exec_Refresh_Get, (document_exec_Get now key c entry Hd).
      unfold CacheEntry.set_LastAccessTime. now rewrite Hs.
  - intros H. now rewrite run_Refresh, H.
  - intros entry H Hs. now rewrite run_Refresh, H, Hs.
  - now destruct (fst (runState (Refresh now key) c)).
Qed.

Lemma refresh_touches_sliding_witness :
  let sliding := CacheEntry.mk "s" [x01] None (Some 20) 1 in
  let fixed := CacheEntry.mk "f" [x02] (Some 50) None 1 in
  snd (runState (Refresh 9 "s") [fixed; sliding]) =
    [fixed; CacheEntry.mk "s" [x01] None (Some 20) 9] /\
  snd (runState (Refresh 9 "f") [fixed; sliding]) = [fixed; sliding] /\
  snd (runState (Refresh 9 "z") [fixed; sliding]) = [fixed; sliding].
Proof.
  intros sliding fixed.
  pose proof (refresh_touches_sliding 9 "s" [fixed; sliding])
    as (Htouch & _).
  pose proof (refresh_touches_sliding 9 "f" [fixed; sliding])
    as (_ & _ & Hfixed & _).
  pose proof (refresh_touches_sliding 9 "z" [fixed; sliding])
    as (_ & Habsent & _).
  split; [|split].
  - destruct (Htouch sliding 20) as [-> _]; reflexivity.
  - apply (Hfixed fixed); reflexivity.
  - apply Habsent; reflexivity.
Defined.

(** C7. After [Set] of a key with no sliding expiration (an absolute
    expiration or none), any number of [Get]s of the key, at any times, leave
    the whole store unchanged, in particular the stored document and its
    last access time, which stays the time of the [Set]; each of these
    [Get]s returns the value that was set. *)
Theorem absolute_only_not_touched (t0 : DateTime) (key : string)
    (value : bytes) (options : DistributedCacheEntryOptions.t)
    (times : list DateTime) (c : t) :
  DistributedCacheEntryOptions.SlidingExpiration options = None ->
  let c1 := snd (runState (Set_ t0 key value options) c) in
  run (gets key times) c1 = c1 /\
  document key (run (gets key times) c1) =
    Some (fresh_entry t0 key value options) /\
  (forall entry, document key (run (gets key times) c1) = Some entry ->
     CacheEntry.LastAccessTime entry = t0) /\
  forall now, fst (runState (Get now key) (run (gets key times) c1))
              = Some value.
Proof.
  intros Hs c1.
  assert (Hd : document key c1 = Some (fresh_entry t0 key value options)).
  { unfold c1. rewrite snd_run_Set. now apply document_upserted. }
  assert (Hrun : run (gets key times) c1 = c1).
  { induction times as [|now times IH]; [reflexivity|].
    cbn [gets map run]. unfold exec. rewrite run_Get, Hd.
    unfold fresh_entry at 1. cbn [CacheEntry.SlidingExpiration].
    rewrite Hs. exact IH. }
  rewrite Hrun. repeat split.
  - exact Hd.
  - intros entry He. rewrite Hd in He. now injection He as <-.
  - intros now. now rewrite fst_run_Get, Hd.
Qed.

Lemma absolute_only_not_touched_witness :
  let options :=
    DistributedCacheEntryOptions.mk (Some (mkDateTimeOffset 90 8)) None None in
  let c1 := snd (runState (Set_ 1 "k" [x2a] options) []) in
  run (gets "k" [2; 3; 5]) c1 = [CacheEntry.mk "k" [x2a] (Some 90) None 1].
Proof.
  intros options c1.
  destruct (absolute_only_not_touched 1 "k" [x2a] options [2; 3; 5] [])
    as (-> & _); reflexivity.
Defined.

(** A call that does not rewrite [key] keeps the document under it, up to
    its last access time. *)
Lemma document_exec_kept now call key c entry :
  rewrites key call = false ->
  document key c = Some entry ->
  exists entry', document key (exec now call c) = Some entry' /\
                 same_payload entry entry'.
Proof.
  intros Hr Hd. destruct (String.eqb_spec (key_of call) key) as [Heq|Hne].
  - destruct call as [k|k|k|k v o]; simpl in Heq, Hr; subst k;
      try (rewrite String.eqb_refl in Hr; discriminate);
      rewrite ?exec_Refresh_Get, (document_exec_Get now key c entry Hd);
      (eexists; split; [reflexivity|]);
      destruct (CacheEntry.SlidingExpiration entry);
      auto using same_payload_refl, same_payload_touch.
  - rewrite document_exec_other by congruence.
    exists entry. auto using same_payload_refl.
Qed.

Lemma document_run_kept key h :
  Forall (fun tc => rewrites key (snd tc) = false) h ->
  forall c entry, document key c = Some entry ->
  exists entry', document key (run h c) = Some entry' /\
                 same_payload entry entry'.
Proof.
  induction 1 as [|[now call] h Hr _ IH]; intros c entry Hd; simpl.
  - exists entry. auto using same_payload_refl.
  - destruct (document_exec_kept now call key c entry Hr Hd) as (e1 & H1 & P1).
    destruct (IH _ _ H1) as (e2 & H2 & P2).
    exists e2. eauto using same_payload_trans.
Qed.

(** C3. After [Set] of a key with a sliding expiration, every later [Get] of
    the key (whatever calls came in between, as long as none of them set or
    removed the key) returns the value that was set, which is the value of
    the document as it was read before the touch, and stores the document
    with its last access time set to the time of that [Get] and every other
    field as [Set] wrote it. *)
Theorem sliding_touch (t0 now : DateTime) (key : string) (value : bytes)
    (options : DistributedCacheEntryOptions.t) (d : TimeSpan)
    (h : list (DateTime * Call)) (c : t) :
  DistributedCacheEntryOptions.SlidingExpiration options = Some d ->
  Forall (fun tc => rewrites key (snd tc) = false) h ->
  let c1 := run h (snd (runState (Set_ t0 key value options) c)) in
  (exists before, document key c1 = Some before /\
     CacheEntry.Value before = value /\
     fst (runState (Get now key) c1) = Some (CacheEntry.Value before)) /\
  fst (runState (Get now key) c1) = Some value /\
  document key (snd (runState (Get now key) c1)) =
    Some (CacheEntry.mk key value
            (option_map UtcDateTime
               (DistributedCacheEntryOptions.AbsoluteExpiration options))
            (Some d) now).
Proof.
  intros Hs Hh c1.
  destruct (document_run_kept key h Hh
              (snd (runState (Set_ t0 key value options) c))
              (fresh_entry t0 key value options))
    as (before & Hd & Hid & Hv & Ha & Hsl).
  { rewrite snd_run_Set. now apply document_upserted. }
  fold c1 in Hd. simpl in Hid, Hv, Ha, Hsl. rewrite Hs in Hsl.
  assert (Hget : fst (runState (Get now key) c1) = Some value).
  { now rewrite fst_run_Get, Hd, <- Hv. }
  repeat split.
  - exists before. rewrite Hv. auto.
  - exact Hget.
  - change (snd (runState (Get now key) c1)) with (exec now (CallGet key) c1).
    rewrite (document_exec_Get now key c1 before Hd), Hsl.
    unfold CacheEntry.set_LastAccessTime. now rewrite Hid, Hv, Ha, Hsl.
Qed.

Lemma sliding_touch_witness :
  let options := DistributedCacheEntryOptions.mk None None (Some 20) in
  let h := [(2, CallGet "k"); (3, CallSet "j" [x07] options);
            (4, CallRefresh "k"); (5, CallRemove "j")] in
  let c1 := run h (snd (runState (Set_ 1 "k" [x2a] options) [])) in
  runState (Get 6 "k") c1 =
    (Some [x2a], [CacheEntry.mk "k" [x2a] None (Some 20) 6]) /\
  document "k" (snd (runState (Get 6 "k") c1)) =
    Some (CacheEntry.mk "k" [x2a] None (Some 20) 6).
Proof.
  intros options h c1. split; [reflexivity|].
  apply (sliding_touch 1 6 "k" [x2a] options 20 h []); [reflexivity|].
  repeat constructor.
Defined.

(** C10. The touch of [Get] and [Refresh] changes nothing but the last access
    time: the document stored under the key after the call has the [Id],
    [Value], [AbsoluteExpiration] and [SlidingExpiration] that were read;
    and [Get], [Refresh] and [Remove] of a key leave the documents stored
    under all other keys as they were. *)
Theorem touch_frame (now : DateTime) (key : string) (c : t) :
  (forall entry, document key c = Some entry ->
     exists e1 e2,
       document key (snd (runState (Get now key) c)) = Some e1 /\
       same_payload entry e1 /\
       document key (snd (runState (Refresh now key) c)) = Some e2 /\
       same_payload entry e2) /\
  others key (snd (runState (Get now key) c)) = others key c /\
  others key (snd (runState (Refresh now key) c)) = others key c /\
  others key (snd (runState (Remove key) c)) = others key c /\
  (forall key', key' <> key ->
     document key' (snd (runState (Get now key) c)) = document key' c /\
     document key' (snd (runState (Refresh now key) c)) = document key' c /\
     document key' (snd (runState (Remove key) c)) = document key' c).
Proof.
  assert (Hget : others key (exec now (CallGet key) c) = others key c).
  { destruct (exec_Get_cases now key c)
      as [[_ ->]|[(e & _ & _ & ->)|(e & d & He & _ & ->)]]; try reflexivity.
    apply others_replaced. simpl. now apply document_Id with c. }
  split; [|split; [|split; [|split]]].
  - intros entry Hd.
    destruct (document_exec_kept now (CallGet key) key c entry eq_refl Hd)
      as (e1 & H1 & P1).
    destruct (document_exec_kept now (CallRefresh key) key c entry eq_refl Hd)
      as (e2 & H2 & P2).
    exists e1, e2. auto.
  - exact Hget.
  - change (snd (runState (Refresh now key) c))
      with (exec now (CallRefresh key) c).
    now rewrite exec_Refresh_Get.
  - rewrite run_Remove. apply others_delete_first.
  - intros key' Hne. repeat split.
    + apply (document_exec_other now (CallGet key)). exact Hne.
    + apply (document_exec_other now (CallRefresh key)). exact Hne.
    + apply (document_exec_other now (CallRemove key)). exact Hne.
Qed.

Lemma touch_frame_witness :
  let a := CacheEntry.mk "a" [x01] (Some 40) (Some 20) 1 in
  let b := CacheEntry.mk "b" [x02] None (Some 30) 2 in
  snd (runState (Get 9 "a") [a; b]) =
    [CacheEntry.mk "a" [x01] (Some 40) (Some 20) 9; b] /\
  (exists e1, document "a" (snd (runState (Get 9 "a") [a; b])) = Some e1 /\
              same_payload a e1) /\
  document "b" (snd (runState (Remove "a") [a; b])) = Some b.
Proof.
  intros a b.
  destruct (touch_frame 9 "a" [a; b]) as (Hkept & _ & _ & _ & Hother).
  split; [reflexivity|]. split.
  - destruct (Hkept a eq_refl) as (e1 & _ & H1 & P1 & _). exists e1. auto.
  - destruct (Hother "b"%string) as (_ & _ & ->); [discriminate|reflexivity].
Defined.

Lemma In_replaced key r c entry :
  In entry (replaced key r c) -> entry = r \/ In entry c.
Proof.
  induction c as [|x c IH]; [now right|].
  rewrite replaced_cons. destruct (by_Id key x); simpl.
  - intros [<-|H]; auto.
  - intros [<-|H]; auto. destruct (IH H); auto.
Qed.

Lemma In_upserted key r c entry :
  In entry (upserted key r c) -> entry = r \/ In entry c.
Proof.
  unfold upserted. destruct (replace_first (by_Id key) r c) as [c'|] eqn:Hc.
  - intros H. apply In_replaced with key. unfold replaced. now rewrite Hc.
  - rewrite in_app_iff. simpl. intuition.
Qed.

(** Every call stamps with the clock it reads, so a bound on the last access
    times moves with the clock. *)
Lemma stamped_exec bound now call c :
  bound <= now -> stamped_by bound c -> stamped_by now (exec now call c).
Proof.
  unfold stamped_by. rewrite !Forall_forall. intros Hle Hc.
  assert (Hold : forall entry, In entry c ->
                   CacheEntry.LastAccessTime entry <= now).
  { intros entry H. specialize (Hc entry H). lia. }
  assert (Hget : forall k entry, In entry (exec now (CallGet k) c) ->
                   CacheEntry.LastAccessTime entry <= now).
  { intros k entry.
    destruct (exec_Get_cases now k c)
      as [[_ ->]|[(e & _ & _ & ->)|(e & d & He & _ & ->)]]; auto.
    intros H. apply In_replaced in H as [->|H]; [simpl; lia|auto]. }
  destruct call as [k|k|k|k v o]; intros entry H.
  - eauto.
  - rewrite exec_Refresh_Get in H. eauto.
  - rewrite exec_Remove in H. apply In_delete_first in H. auto.
  - rewrite exec_Set in H. apply In_upserted in H as [->|H]; [simpl; lia|auto].
Qed.

Section LastAccess.
Variable key : string.

(** One call either leaves the last access time of a document or sets it
    to the clock reading of the call. *)
Lemma LastAccessTime_exec now call c entry entry' :
  UniqueIds c ->
  document key c = Some entry ->
  document key (exec now call c) = Some entry' ->
  CacheEntry.LastAccessTime entry' = CacheEntry.LastAccessTime entry \/
  CacheEntry.LastAccessTime entry' = now.
Proof.
  intros Hu Hd Hd'.
  destruct (String.eqb_spec (key_of call) key) as [Heq|Hne].
  - destruct call as [k|k|k|k v o]; simpl in Heq; subst k.
    + rewrite (document_exec_Get now key c entry Hd) in Hd'.
      injection Hd' as <-.
      destruct (CacheEntry.SlidingExpiration entry); auto.
    + rewrite exec_Refresh_Get, (document_exec_Get now key c entry Hd) in Hd'.
      injection Hd' as <-.
      destruct (CacheEntry.SlidingExpiration entry); auto.
    + rewrite exec_Remove, document_delete_first in Hd' by exact Hu.
      discriminate.
    + rewrite exec_Set, document_upserted in Hd' by reflexivity.
      injection Hd' as <-. now right.
  - rewrite document_exec_other in Hd' by congruence.
    left. congruence.
Qed.

(** A document that a call brings into being is stamped with the clock
    reading of the call. *)
Lemma LastAccessTime_created now call c entry' :
  document key c = None ->
  document key (exec now call c) = Some entry' ->
  CacheEntry.LastAccessTime entry' = now.
Proof.
  intros Hd Hd'. destruct (sets key call) eqn:Hs.
  - destruct call as [k|k|k|k v o]; try discriminate.
    simpl in Hs. apply String.eqb_eq in Hs. subst k.
    rewrite exec_Set, document_upserted in Hd' by reflexivity.
    now injection Hd' as <-.
  - rewrite (document_exec_absent now call key c Hs Hd) in Hd'. discriminate.
Qed.

Lemma floor_exec bound now call c :
  UniqueIds c -> stamped_by bound c -> bound <= now ->
  floor key bound c <= floor key now (exec now call c).
Proof.
  intros Hu Hst Hle. unfold floor.
  destruct (document key c) as [entry|] eqn:Hd.
  - assert (CacheEntry.LastAccessTime entry <= bound).
    { unfold stamped_by in Hst. rewrite Forall_forall in Hst.
      apply Hst. now apply document_In with key. }
    destruct (document key (exec now call c)) as [entry'|] eqn:Hd'; [|lia].
    destruct (LastAccessTime_exec now call c entry entry' Hu Hd Hd'); lia.
  - destruct (document key (exec now call c)) as [entry'|] eqn:Hd'; [|lia].
    rewrite (LastAccessTime_created now call c entry' Hd Hd'). lia.
Qed.

Lemma floor_run h :
  forall bound c,
    UniqueIds c -> stamped_by bound c -> chronological bound h ->
    floor key bound c <= floor key (last_time bound h) (run h c).
Proof.
  induction h as [|[now call] h IH]; intros bound c Hu Hst Hch; simpl.
  - lia.
  - destruct Hch as [Hle Hch].
    pose proof (floor_exec bound now call c Hu Hst Hle).
    pose proof (IH now (exec now call c) (UniqueIds_exec now call c Hu)
                  (stamped_exec bound now call c Hle Hst) Hch).
    lia.
Qed.
End LastAccess.

Lemma run_app h1 h2 c : run (h1 ++ h2) c = run h2 (run h1 c).
Proof.
  revert c. induction h1 as [|[now call] h1 IH]; intros c; simpl; auto.
Qed.

Lemma chronological_app h1 h2 :
  forall bound, chronological bound (h1 ++ h2) ->
    chronological bound h1 /\ chronological (last_time bound h1) h2.
Proof.
  induction h1 as [|[now call] h1 IH]; intros bound H; simpl in *; [auto|].
  destruct H as [Hle H]. destruct (IH now H). auto.
Qed.

Lemma stamped_run h :
  forall bound c, stamped_by bound c -> chronological bound h ->
    stamped_by (last_time bound h) (run h c).
Proof.
  induction h as [|[now call] h IH]; intros bound c Hst Hch; simpl; [auto|].
  destruct Hch as [Hle Hch]. apply IH; [|exact Hch].
  now apply stamped_exec with bound.
Qed.




(** * Further properties of the adapter *)

(** ** More facts about the collection operations *)

Lemma replaced_self key c entry :
  document key c = Some entry -> replaced key entry c = c.
Proof.
  induction c as [|x c IH]; [reflexivity|].
  rewrite document_cons, replaced_cons. destruct (by_Id key x).
  - now intros [= ->].
  - intros H. now rewrite IH.
Qed.

Lemma replaced_replaced key r1 r2 c :
  CacheEntry.Id r1 = key ->
  replaced key r2 (replaced key r1 c) = replaced key r2 c.
Proof.
  intros H1. induction c as [|x c IH]; [reflexivity|].
  rewrite !replaced_cons. head_case key x.
  - now rewrite replaced_cons, (r_by_Id key r1 H1).
  - now rewrite replaced_cons, Hx, IH.
Qed.

Lemma upserted_replaced key r1 r2 c :
  CacheEntry.Id r1 = key ->
  upserted key r2 (replaced key r1 c) = upserted key r2 c.
Proof.
  intros H1. induction c as [|x c IH]; [reflexivity|].
  rewrite replaced_cons, !upserted_cons. head_case key x.
  - now rewrite upserted_cons, (r_by_Id key r1 H1).
  - now rewrite upserted_cons, Hx, IH.
Qed.

Lemma delete_first_replaced key r c :
  CacheEntry.Id r = key ->
  delete_first (by_Id key) (replaced key r c) = delete_first (by_Id key) c.
Proof.
  intros Hr. induction c as [|x c IH]; [reflexivity|].
  rewrite replaced_cons. head_case key x.
  - now rewrite (r_by_Id key r Hr).
  - now rewrite IH.
Qed.

Lemma delete_first_upserted key r c :
  CacheEntry.Id r = key ->
  delete_first (by_Id key) (upserted key r c) = delete_first (by_Id key) c.
Proof.
  intros Hr. induction c as [|x c IH].
  - unfold upserted. simpl. now rewrite (r_by_Id key r Hr).
  - rewrite upserted_cons. head_case key x.
    + now rewrite (r_by_Id key r Hr).
    + now rewrite IH.
Qed.

Lemma length_replaced key r c :
  List.length (replaced key r c) = List.length c.
Proof.
  induction c as [|x c IH]; [reflexivity|].
  rewrite replaced_cons. destruct (by_Id key x); simpl; congruence.
Qed.

Lemma touch_Id now entry :
  CacheEntry.Id (touch now entry) = CacheEntry.Id entry.
Proof. unfold touch. now destruct (CacheEntry.SlidingExpiration entry). Qed.

Lemma touch_touch t1 t2 entry : touch t2 (touch t1 entry) = touch t2 entry.
Proof.
  unfold touch.
  destruct (CacheEntry.SlidingExpiration entry) as [d|] eqn:Hs; simpl;
    now rewrite Hs.
Qed.

(** The store after [Get], in one formula. *)
Lemma exec_Get_touch now key c :
  exec now (CallGet key) c =
  match document key c with
  | Some entry => replaced key (touch now entry) c
  | None => c
  end.
Proof.
  unfold exec, touch. rewrite run_Get.
  destruct (document key c) as [entry|] eqn:Hd; [|reflexivity].
  destruct (CacheEntry.SlidingExpiration entry); [reflexivity|].
  simpl. symmetry. now apply replaced_self.
Qed.

Lemma document_exec_Get_touch now key c :
  document key (exec now (CallGet key) c) =
  option_map (touch now) (document key c).
Proof.
  destruct (document key c) as [entry|] eqn:Hd.
  - now rewrite (document_exec_Get now key c entry Hd).
  - rewrite exec_Get_touch. now rewrite Hd.
Qed.

(** ** How calls on one key compose *)

(** [Refresh] leaves the store exactly as [Get] of the same key at the same
    time does. *)
Theorem Refresh_store_as_Get (now : DateTime) (key : string) (c : t) :
  snd (runState (Refresh now key) c) = snd (runState (Get now key) c).
Proof. apply (exec_Refresh_Get now key c). Qed.

(** The touch of a [Get] or [Refresh] leaves no trace once another call
    writes the same key: followed by a later [Get] or [Refresh], by a [Set]
    or by a [Remove], the store is the one the later call alone produces, and
    a later [Get] returns the value it would have returned alone. *)
Theorem touch_absorbed (t1 t2 : DateTime) (key : string) (value : bytes)
    (options : DistributedCacheEntryOptions.t) (c : t) :
  runState (Get t1 key ;; Get t2 key) c = runState (Get t2 key) c /\
  runState (Refresh t1 key ;; Refresh t2 key) c = runState (Refresh t2 key) c /\
  runState (Get t1 key ;; Set_ t2 key value options) c =
    runState (Set_ t2 key value options) c /\
  runState (Refresh t1 key ;; Remove key) c = runState (Remove key) c.
Proof.
  assert (Hstore : forall now, snd (runState (Get now key) c) =
                               exec now (CallGet key) c) by reflexivity.
  assert (Hgg : exec t2 (CallGet key) (exec t1 (CallGet key) c) =
                exec t2 (CallGet key) c).
  { rewrite (exec_Get_touch t2), document_exec_Get_touch.
    rewrite !exec_Get_touch.
    destruct (document key c) as [entry|] eqn:Hd; simpl; [|reflexivity].
    rewrite touch_touch. apply replaced_replaced.
    rewrite touch_Id. now apply document_Id with c. }
  repeat split.
  - rewrite run_bind, Hstore.
    apply injective_projections.
    + rewrite !fst_run_Get, document_exec_Get_touch.
      destruct (document key c) as [entry|]; [|reflexivity].
      simpl. unfold touch.
      now destruct (CacheEntry.SlidingExpiration entry).
    + exact Hgg.
  - rewrite run_bind.
    change (snd (runState (Refresh t1 key) c))
      with (exec t1 (CallRefresh key) c).
    apply injective_projections.
    + now destruct (fst (runState (Refresh t2 key) _)),
                   (fst (runState (Refresh t2 key) c)).
    + change (exec t2 (CallRefresh key) (exec t1 (CallRefresh key) c) =
              exec t2 (CallRefresh key) c).
      now rewrite !exec_Refresh_Get.
  - rewrite run_bind, Hstore, !run_Set. cbv zeta. f_equal.
    fold (fresh_entry t2 key value options).
    fold (upserted key (fresh_entry t2 key value options)
            (exec t1 (CallGet key) c)).
    fold (upserted key (fresh_entry t2 key value options) c).
    rewrite exec_Get_touch.
    destruct (document key c) as [entry|] eqn:Hd; [|reflexivity].
    apply upserted_replaced. rewrite touch_Id. now apply document_Id with c.
  - rewrite run_bind, !run_Remove. f_equal.
    change (snd (runState (Refresh t1 key) c))
      with (exec t1 (CallRefresh key) c).
    rewrite exec_Refresh_Get, exec_Get_touch.
    destruct (document key c) as [entry|] eqn:Hd; [|reflexivity].
    apply delete_first_replaced. rewrite touch_Id.
    now apply document_Id with c.
Qed.

(** A [Set] followed by [Remove] of the same key leaves the store as [Remove]
    alone does: the entry that was set is gone and nothing else changed. *)
Theorem Set_then_Remove (now : DateTime) (key : string) (value : bytes)
    (options : DistributedCacheEntryOptions.t) (c : t) :
  runState (Set_ now key value options ;; Remove key) c =
  runState (Remove key) c.
Proof.
  rewrite run_bind, snd_run_Set, !run_Remove. f_equal.
  now apply delete_first_upserted.
Qed.

(** ** The store behaves as a map from keys to documents *)

(** One call, seen from one key. *)
Lemma document_exec now call key c :
  UniqueIds c ->
  document key (exec now call c) =
  if String.eqb (key_of call) key
  then effect now call (document key c) else document key c.
Proof.
  intros Hu. destruct (String.eqb_spec (key_of call) key) as [Heq|Hne].
  - destruct call as [k|k|k|k v o]; simpl in Heq; subst k; simpl effect.
    + apply document_exec_Get_touch.
    + rewrite exec_Refresh_Get. apply document_exec_Get_touch.
    + rewrite exec_Remove. now apply document_delete_first.
    + rewrite exec_Set. now apply document_upserted.
  - apply document_exec_other. congruence.
Qed.

(** In a store with unique [Id]s, the document found under a key after any
    history of calls is determined by the document found under that key
    before it and by the calls about that key, taken in order: [Get] and
    [Refresh] touch it, [Remove] deletes it, [Set] replaces it by a fresh
    entry; calls about other keys play no part. *)
Theorem store_as_map (key : string) (h : list (DateTime * Call)) (c : t) :
  UniqueIds c ->
  document key (run h c) = history_effect key h (document key c).
Proof.
  revert c. induction h as [|[now call] h IH]; intros c Hu; [reflexivity|].
  simpl run. unfold history_effect. simpl fold_left.
  fold (history_effect key h).
  rewrite <- (document_exec now call key c Hu).
  apply IH. now apply UniqueIds_exec.
Qed.

Lemma store_as_map_witness :
  let sliding := DistributedCacheEntryOptions.mk None None (Some 20) in
  let h := [(1, CallSet "a" [x01] sliding); (2, CallSet "b" [x02] sliding);
            (3, CallGet "a"); (4, CallRemove "b"); (5, CallRefresh "b")] in
  document "a" (run h []) = Some (CacheEntry.mk "a" [x01] None (Some 20) 3) /\
  document "b" (run h []) = None.
Proof.
  intros sliding h. split.
  - rewrite (store_as_map "a" h [] UniqueIds_empty). reflexivity.
  - rewrite (store_as_map "b" h [] UniqueIds_empty). reflexivity.
Defined.

Lemma same_reading_refl d : same_reading d d.
Proof. destruct d; simpl; auto using same_payload_refl. Qed.

(** The clock reading of a call shows in the last access time only. *)
Lemma effect_same_reading t1 t2 call d :
  same_reading (effect t1 call d) (effect t2 call d).
Proof.
  destruct call as [k|k|k|k v o]; simpl;
    try (destruct d as [e|]; simpl; [|exact I]; unfold touch;
         destruct (CacheEntry.SlidingExpiration e) eqn:Hs;
         repeat split; simpl; auto);
    try exact I.
  repeat split.
Qed.

(** Calls about different keys are independent.  Each made with the clock
    reading it saw, two such calls leave the same document under every key
    whichever of them reaches the store first.  When the clock follows the
    order of the calls instead (the call made first reads [t1], the call
    made second reads [t2], in both orders), the two orders leave under every
    key documents that agree on everything but the last access time, which
    is that of the call's place in the order.  (The order of the documents
    in the collection may differ; no call of the adapter observes it.) *)
Theorem calls_on_different_keys_commute (t1 t2 : DateTime) (a b : Call)
    (c : t) (key : string) :
  UniqueIds c -> key_of a <> key_of b ->
  document key (exec t2 b (exec t1 a c)) =
    document key (exec t1 a (exec t2 b c)) /\
  same_reading (document key (exec t2 b (exec t1 a c)))
               (document key (exec t2 a (exec t1 b c))).
Proof.
  intros Hu Hne.
  rewrite (document_exec t2 b key _ (UniqueIds_exec t1 a c Hu)).
  rewrite (document_exec t1 a key _ (UniqueIds_exec t2 b c Hu)).
  rewrite (document_exec t2 a key _ (UniqueIds_exec t1 b c Hu)).
  rewrite (document_exec t1 a key c Hu), (document_exec t2 b key c Hu).
  rewrite (document_exec t1 b key c Hu).
  destruct (String.eqb_spec (key_of a) key) as [Ha|Ha];
    destruct (String.eqb_spec (key_of b) key) as [Hb|Hb];
    try congruence; split; try reflexivity;
    auto using effect_same_reading, same_reading_refl.
Qed.

Lemma calls_on_different_keys_commute_witness :
  let c := [CacheEntry.mk "a" [x01] None (Some 20) 1;
            CacheEntry.mk "b" [x02] None (Some 20) 1] in
  document "a" (exec 3 (CallGet "b") (exec 2 (CallGet "a") c)) =
    document "a" (exec 2 (CallGet "a") (exec 3 (CallGet "b") c)) /\
  document "a" (exec 3 (CallGet "b") (exec 2 (CallGet "a") c)) =
    Some (CacheEntry.mk "a" [x01] None (Some 20) 2) /\
  document "a" (exec 3 (CallGet "a") (exec 2 (CallGet "b") c)) =
    Some (CacheEntry.mk "a" [x01] None (Some 20) 3) /\
  same_reading (document "a" (exec 3 (CallGet "b") (exec 2 (CallGet "a") c)))
               (document "a" (exec 3 (CallGet "a") (exec 2 (CallGet "b") c))).
Proof.
  intros c.
  destruct (calls_on_different_keys_commute 2 3 (CallGet "a") (CallGet "b")
              c "a") as [Hkept Hordered].
  - repeat constructor; simpl; intuition discriminate.
  - discriminate.
  - split; [exact Hkept|]. split; [reflexivity|]. split; [reflexivity|].
    exact Hordered.
Defined.

(** ** One document per key *)

Lemma filter_by_Id_absent key c :
  ~ In key (map CacheEntry.Id c) -> filter (by_Id key) c = [].
Proof.
  induction c as [|x c IH]; [reflexivity|].
  simpl. intros H. destruct (by_Id key x) eqn:Hx.
  - apply by_Id_true in Hx. elim H. now left.
  - apply IH. intros H'. apply H. now right.
Qed.

Lemma UniqueIds_at_most_one key c :
  UniqueIds c -> (List.length (filter (by_Id key) c) <= 1)%nat.
Proof.
  unfold UniqueIds. induction c as [|x c IH]; simpl; [lia|].
  intros H. inversion H as [|? ? Hx Hc]; subst.
  destruct (by_Id key x) eqn:Hk; [|auto].
  apply by_Id_true in Hk. rewrite filter_by_Id_absent; [simpl; lia|].
  now rewrite <- Hk.
Qed.

(** The adapter never stores two documents under one key: whatever calls are
    made, in a store that started empty (or with unique [Id]s) [Find] by
    [Id] matches at most one document. *)
Theorem at_most_one_document_per_key (h : list (DateTime * Call))
    (key : string) :
  (List.length (filter (by_Id key) (run h [])) <= 1)%nat /\
  forall c, UniqueIds c ->
    (List.length (filter (by_Id key) (run h c)) <= 1)%nat.
Proof.
  split.
  - apply UniqueIds_at_most_one, UniqueIds_run, UniqueIds_empty.
  - intros c Hu. now apply UniqueIds_at_most_one, UniqueIds_run.
Qed.

Lemma at_most_one_document_per_key_witness :
  let c := [CacheEntry.mk "a" [x01] None None 1;
            CacheEntry.mk "b" [x02] None None 1] in
  let h := [(2, CallSet "a" [x03] DistributedCacheEntryOptions.empty);
            (3, CallSet "a" [x04] DistributedCacheEntryOptions.empty)] in
  (List.length (filter (by_Id "a") (run h c)) <= 1)%nat.
Proof.
  intros c h.
  apply (at_most_one_document_per_key h "a").
  repeat constructor; simpl; intuition discriminate.
Defined.

Lemma length_upserted key r c :
  List.length (upserted key r c) =
  match document key c with
  | Some _ => List.length c
  | None => S (List.length c)
  end.
Proof.
  induction c as [|x c IH]; [reflexivity|].
  rewrite upserted_cons, document_cons. destruct (by_Id key x); simpl.
  - reflexivity.
  - rewrite IH. now destruct (document key c).
Qed.

Lemma length_delete_first key c :
  List.length c =
  match document key c with
  | Some _ => S (List.length (delete_first (by_Id key) c))
  | None => List.length (delete_first (by_Id key) c)
  end.
Proof.
  induction c as [|x c IH]; [reflexivity|].
  rewrite document_cons. simpl. destruct (by_Id key x); simpl.
  - reflexivity.
  - rewrite IH at 1. now destruct (document key c).
Qed.

(** The number of documents: [Get] and [Refresh] keep the list of [Id]s of
    the store as it is; [Set] adds one document when the key has none and
    none when it has one; [Remove] takes away one document when the key has
    one and none otherwise. *)
Theorem document_count (now : DateTime) (key : string) (value : bytes)
    (options : DistributedCacheEntryOptions.t) (c : t) :
  map CacheEntry.Id (snd (runState (Get now key) c)) = map CacheEntry.Id c /\
  map CacheEntry.Id (snd (runState (Refresh now key) c)) =
    map CacheEntry.Id c /\
  List.length (snd (runState (Set_ now key value options) c)) =
    match document key c with
    | Some _ => List.length c
    | None => S (List.length c)
    end /\
  List.length c =
    match document key c with
    | Some _ => S (List.length (snd (runState (Remove key) c)))
    | None => List.length (snd (runState (Remove key) c))
    end.
Proof.
  assert (Hget : map CacheEntry.Id (exec now (CallGet key) c) =
                 map CacheEntry.Id c).
  { rewrite exec_Get_touch.
    destruct (document key c) as [entry|] eqn:Hd; [|reflexivity].
    apply Ids_replaced. rewrite touch_Id. now apply document_Id with c. }
  repeat split.
  - exact Hget.
  - change (snd (runState (Refresh now key) c))
      with (exec now (CallRefresh key) c).
    now rewrite exec_Refresh_Get.
  - rewrite snd_run_Set. apply length_upserted.
  - rewrite run_Remove. apply length_delete_first.
Qed.

(** ** Reading after other traffic *)

(** [Get] returns the value of the last [Set] of the key, whatever the
    options of that [Set] and whatever calls came in between, as long as none
    of them set or removed the key: calls about other keys, and [Get]s and
    [Refresh]es of the key itself, do not disturb the value. *)
Theorem Get_returns_last_Set (t0 now : DateTime) (key : string)
    (value : bytes) (options : DistributedCacheEntryOptions.t)
    (h : list (DateTime * Call)) (c : t) :
  Forall (fun tc => rewrites key (snd tc) = false) h ->
  fst (runState (Get now key)
         (run h (snd (runState (Set_ t0 key value options) c)))) = Some value.
Proof.
  intros Hh.
  destruct (document_run_kept key h Hh
              (snd (runState (Set_ t0 key value options) c))
              (fresh_entry t0 key value options))
    as (entry & Hd & _ & Hv & _).
  { rewrite snd_run_Set. now apply document_upserted. }
  rewrite fst_run_Get, Hd. simpl. now rewrite Hv.
Qed.

Lemma Get_returns_last_Set_witness :
  let h := [(2, CallSet "j" [x07] DistributedCacheEntryOptions.empty);
            (3, CallGet "k"); (4, CallRemove "j"); (5, CallRefresh "k")] in
  fst (runState (Get 6 "k")
         (run h (snd (runState
                        (Set_ 1 "k" [x2a] DistributedCacheEntryOptions.empty)
                        [])))) = Some [x2a].
Proof.
  intros h.
  apply (Get_returns_last_Set 1 6 "k" [x2a]
           DistributedCacheEntryOptions.empty h []).
  repeat constructor.
Defined.

(** A removed key stays not-found until it is set again: in a store with
    unique [Id]s, after [Remove] of the key and any calls none of which sets
    the key, [Get] returns not-found. *)
Theorem removed_until_set_again (now : DateTime) (key : string)
    (h : list (DateTime * Call)) (c : t) :
  UniqueIds c ->
  Forall (fun tc => sets key (snd tc) = false) h ->
  fst (runState (Get now key) (run h (snd (runState (Remove key) c)))) = None.
Proof.
  intros Hu Hh. rewrite fst_run_Get.
  rewrite (document_run_never_set key h Hh); [reflexivity|].
  rewrite run_Remove. now apply document_delete_first.
Qed.

Lemma removed_until_set_again_witness :
  let c := [CacheEntry.mk "k" [x01] None (Some 20) 1] in
  let h := [(2, CallRefresh "k");
            (3, CallSet "j" [x07] DistributedCacheEntryOptions.empty);
            (4, CallGet "k")] in
  fst (runState (Get 5 "k") (run h (snd (runState (Remove "k") c)))) = None.
Proof.
  intros c h. apply (removed_until_set_again 5 "k" h c).
  - repeat constructor. simpl. tauto.
  - repeat constructor.
Defined.

(** Only [Set] changes what is stored under a key apart from the last access
    time: in a store with unique [Id]s, along any history without a [Set] of
    the key, a document found under the key at the end has the [Id],
    [Value], [AbsoluteExpiration] and [SlidingExpiration] of the document
    found under it at the start. *)
Theorem payload_changed_by_Set_only (key : string)
    (h : list (DateTime * Call)) (c : t) (e e' : CacheEntry.t) :
  UniqueIds c ->
  Forall (fun tc => sets key (snd tc) = false) h ->
  document key c = Some e ->
  document key (run h c) = Some e' ->
  same_payload e e'.
Proof.
  intros Hu Hh. revert c e Hu.
  induction Hh as [|[now call] h Hs Hh IH]; intros c e Hu Hd Hd'.
  - simpl in Hd'. rewrite Hd in Hd'. injection Hd' as <-.
    apply same_payload_refl.
  - simpl in Hd', Hs.
    destruct (rewrites key call) eqn:Hr.
    + assert (Hgone : document key (exec now call c) = None).
      { destruct call as [k|k|k|k v o]; simpl in Hr, Hs; try congruence.
        apply String.eqb_eq in Hr. subst k.
        rewrite exec_Remove. now apply document_delete_first. }
      rewrite (document_run_never_set key h Hh _ Hgone) in Hd'.
      discriminate.
    + destruct (document_exec_kept now call key c e Hr Hd) as (e1 & H1 & P1).
      apply same_payload_trans with e1; [exact P1|].
      apply (IH (exec now call c) e1); auto using UniqueIds_exec.
Qed.

Lemma payload_changed_by_Set_only_witness :
  let c := [CacheEntry.mk "k" [x01] (Some 90) (Some 20) 1] in
  let h := [(2, CallGet "k");
            (3, CallSet "j" [x07] DistributedCacheEntryOptions.empty);
            (4, CallRefresh "k")] in
  same_payload (CacheEntry.mk "k" [x01] (Some 90) (Some 20) 1)
               (CacheEntry.mk "k" [x01] (Some 90) (Some 20) 4).
Proof.
  intros c h.
  apply (payload_changed_by_Set_only "k" h c).
  - repeat constructor. simpl. tauto.
  - repeat constructor.
  - reflexivity.
  - reflexivity.
Defined.

(** ** What [Set] keeps of its options *)

(** [Set] stores the UTC instant of [AbsoluteExpiration] and the
    [SlidingExpiration], and nothing else of its options: two option values
    that agree on these produce the same store, whatever their
    [AbsoluteExpirationRelativeToNow] and the offsets of their absolute
    expirations.  In particular an entry set with a relative expiration
    only is stored as one set with no expiration at all. *)
Theorem Set_reads_two_options (now : DateTime) (key : string) (value : bytes)
    (o1 o2 : DistributedCacheEntryOptions.t) (c : t) :
  option_map UtcDateTime (DistributedCacheEntryOptions.AbsoluteExpiration o1) =
  option_map UtcDateTime (DistributedCacheEntryOptions.AbsoluteExpiration o2) ->
  DistributedCacheEntryOptions.SlidingExpiration o1 =
  DistributedCacheEntryOptions.SlidingExpiration o2 ->
  runState (Set_ now key value o1) c = runState (Set_ now key value o2) c.
Proof.
  intros Ha Hs. rewrite !run_Set. cbv zeta. now rewrite Ha, Hs.
Qed.

Lemma Set_reads_two_options_witness :
  runState (Set_ 1 "k" [x2a]
              (DistributedCacheEntryOptions.mk None (Some 600) None)) [] =
  (tt, [CacheEntry.mk "k" [x2a] None None 1]).
Proof.
  rewrite (Set_reads_two_options 1 "k" [x2a]
             (DistributedCacheEntryOptions.mk None (Some 600) None)
             DistributedCacheEntryOptions.empty []); reflexivity.
Defined.

(** ** Other callers between the read and the write of [Get] *)

Lemma run_Get_read key c :
  runState (Get_read key) c = (document key c, c).
Proof. reflexivity. Qed.

Lemma run_Get_write now key read c :
  runState (Get_write now key read) c =
  (option_map CacheEntry.Value read,
   match read with
   | Some entry => match CacheEntry.SlidingExpiration entry with
                   | Some _ => replaced key
                                 (CacheEntry.set_LastAccessTime now entry) c
                   | None => c
                   end
   | None => c
   end).
Proof.
  unfold Get_write, replaced, ReplaceOne. destruct read as [entry|];
    [|reflexivity].
  destruct (CacheEntry.SlidingExpiration entry); [|reflexivity].
  simpl. destruct (replace_first _ _ c); reflexivity.
Qed.

(** [Get] is its read followed by its write. *)
Lemma Get_phases now key c :
  runState (read <- Get_read key ;; Get_write now key read) c =
  runState (Get now key) c.
Proof.
  rewrite run_bind, run_Get_read, run_Get_write, run_Get. simpl.
  destruct (document key c) as [entry|]; [|reflexivity].
  destruct (CacheEntry.SlidingExpiration entry); reflexivity.
Qed.

(** A [Set] of the key by another caller that lands between the read and the
    write of a [Get] is lost when the entry read has a sliding expiration:
    the write puts back the entry that was read, and the store ends up as if
    the [Set] had never been made.  When the entry read has no sliding
    expiration, [Get] writes nothing and the [Set] stands.  In both cases
    [Get] returns the value it read. *)
Theorem Set_between_read_and_write (t1 now : DateTime) (key : string)
    (value : bytes) (options : DistributedCacheEntryOptions.t) (c : t)
    (old : CacheEntry.t) :
  document key c = Some old ->
  let interleaved :=
    runState (read <- Get_read key ;;
              Set_ t1 key value options ;;
              Get_write now key read) c in
  fst interleaved = Some (CacheEntry.Value old) /\
  (forall d, CacheEntry.SlidingExpiration old = Some d ->
     interleaved = runState (Get now key) c) /\
  (CacheEntry.SlidingExpiration old = None ->
     snd interleaved = snd (runState (Set_ t1 key value options) c)).
Proof.
  intros Hd interleaved.
  assert (Hi : interleaved =
               runState (Get_write now key (Some old))
                 (upserted key (fresh_entry t1 key value options) c)).
  { unfold interleaved. rewrite run_bind, run_Get_read. cbn [fst snd].
    now rewrite run_bind, snd_run_Set, Hd. }
  rewrite Hi, run_Get_write. cbn [fst snd option_map].
  split; [reflexivity|]. split.
  - intros d Hs. rewrite run_Get, Hd, Hs. f_equal.
    rewrite (upserted_present key _ c old Hd).
    now apply replaced_replaced.
  - intros Hs. now rewrite Hs, snd_run_Set.
Qed.

Lemma Set_between_read_and_write_witness :
  let c := [CacheEntry.mk "k" [x01] None (Some 20) 1] in
  runState (read <- Get_read "k" ;;
            Set_ 2 "k" [x02] DistributedCacheEntryOptions.empty ;;
            Get_write 3 "k" read) c =
  (Some [x01], [CacheEntry.mk "k" [x01] None (Some 20) 3]).
Proof.
  intros c.
  destruct (Set_between_read_and_write 2 3 "k" [x02]
              DistributedCacheEntryOptions.empty c
              (CacheEntry.mk "k" [x01] None (Some 20) 1) eq_refl)
    as (_ & Hlost & _).
  exact (eq_trans (Hlost 20 eq_refl) eq_refl).
Defined.

(** A [Remove] of the key by another caller that lands between the read and
    the write of a [Get] stands: the write of [Get] replaces without upsert,
    finds no document and inserts none, so the key stays removed, while
    [Get] still returns the value it read. *)
Theorem Remove_between_read_and_write (now : DateTime) (key : string)
    (c : t) (old : CacheEntry.t) :
  UniqueIds c ->
  document key c = Some old ->
  runState (read <- Get_read key ;; Remove key ;; Get_write now key read) c =
  (Some (CacheEntry.Value old), snd (runState (Remove key) c)).
Proof.
  intros Hu Hd.
  rewrite run_bind, run_Get_read. cbn [fst snd].
  rewrite run_bind, run_Remove, Hd. cbn [fst snd].
  rewrite run_Get_write. cbn [option_map]. f_equal.
  destruct (CacheEntry.SlidingExpiration old); [|reflexivity].
  apply replaced_absent. now apply document_delete_first.
Qed.

Lemma Remove_between_read_and_write_witness :
  let c := [CacheEntry.mk "k" [x01] None (Some 20) 1] in
  runState (read <- Get_read "k" ;; Remove "k" ;; Get_write 3 "k" read) c =
  (Some [x01], []).
Proof.
  intros c.
  apply (Remove_between_read_and_write 3 "k" c
           (CacheEntry.mk "k" [x01] None (Some 20) 1)).
  - repeat constructor. simpl. tauto.
  - reflexivity.
Defined.

(** ** The cancellable variants *)

Section AsyncFacts.
Import Async.
Variables (token : CancellationToken) (w : World).

(** A token that is not yet cancelled after one more driver call is not
    cancelled now. *)
Lemma not_cancelled_before :
  IsCancellationRequested token (S (driver_calls w)) = false ->
  IsCancellationRequested token (driver_calls w) = false.
Proof.
  unfold IsCancellationRequested.
  destruct token as [cancellation|]; [|reflexivity].
  rewrite !Nat.leb_gt. lia.
Qed.

(** A driver call whose token is not cancelled is the blocking operation. *)
Lemma driver_call_completes {A} (op : state t A) :
  IsCancellationRequested token (driver_calls w) = false ->
  driver_call token op w =
  (inr (fst (runState op (store w))),
   mkWorld (snd (runState op (store w))) (S (driver_calls w))).
Proof. intros H. unfold driver_call. now rewrite H. Qed.

(** The read of the cancellable variants, with the token not cancelled. *)
Lemma FirstOrDefaultAsync_completes key :
  IsCancellationRequested token (driver_calls w) = false ->
  FirstOrDefaultAsync (Find (by_Id key)) token w =
  (inr (document key (store w)), mkWorld (store w) (S (driver_calls w))).
Proof.
  intros H. unfold FirstOrDefaultAsync.
  now rewrite (driver_call_completes _ H).
Qed.

End AsyncFacts.

Section AsyncProperties.
Import Async.

Lemma ReplaceOneAsync_completes token w key entry :
  IsCancellationRequested token (driver_calls w) = false ->
  ReplaceOneAsync (by_Id key) entry (mkReplaceOptions false) token w =
  (inr tt, mkWorld (replaced key entry (store w)) (S (driver_calls w))).
Proof.
  intros H. unfold ReplaceOneAsync.
  rewrite (driver_call_completes token w _ H).
  unfold replaced, ReplaceOne. simpl.
  destruct (replace_first _ _ (store w)); reflexivity.
Qed.

Lemma GetAsync_completes token w now key :
  IsCancellationRequested token (S (driver_calls w)) = false ->
  GetAsync now key token w =
  match document key (store w) with
  | None => (inr None, mkWorld (store w) (S (driver_calls w)))
  | Some entry =>
      match CacheEntry.SlidingExpiration entry with
      | None => (inr (Some (CacheEntry.Value entry)),
                 mkWorld (store w) (S (driver_calls w)))
      | Some _ =>
          (inr (Some (CacheEntry.Value entry)),
           mkWorld
             (replaced key (CacheEntry.set_LastAccessTime now entry)
                (store w))
             (S (S (driver_calls w))))
      end
  end.
Proof.
  intros H1. pose proof (not_cancelled_before token w H1) as H0.
  unfold GetAsync. cbn [bind Monad_Task].
  rewrite (FirstOrDefaultAsync_completes token w key H0).
  destruct (document key (store w)) as [entry|]; [|reflexivity].
  destruct (CacheEntry.SlidingExpiration entry); [|reflexivity].
  now rewrite ReplaceOneAsync_completes by exact H1.
Qed.

Lemma RefreshAsync_completes token w now key :
  IsCancellationRequested token (S (driver_calls w)) = false ->
  RefreshAsync now key token w =
  match document key (store w) with
  | None => (inr tt, mkWorld (store w) (S (driver_calls w)))
  | Some entry =>
      match CacheEntry.SlidingExpiration entry with
      | None => (inr tt, mkWorld (store w) (S (driver_calls w)))
      | Some _ =>
          (inr tt,
           mkWorld
             (replaced key (CacheEntry.set_LastAccessTime now entry)
                (store w))
             (S (S (driver_calls w))))
      end
  end.
Proof.
  intros H1. pose proof (not_cancelled_before token w H1) as H0.
  unfold RefreshAsync. cbn [bind Monad_Task].
  rewrite (FirstOrDefaultAsync_completes token w key H0).
  destruct (document key (store w)) as [entry|]; [|reflexivity].
  destruct (CacheEntry.SlidingExpiration entry); [|reflexivity].
  now rewrite ReplaceOneAsync_completes by exact H1.
Qed.

Lemma SetAsync_completes token w now key value options :
  IsCancellationRequested token (driver_calls w) = false ->
  SetAsync now key value options token w =
  (inr tt, mkWorld (upserted key (fresh_entry now key value options)
                      (store w))
             (S (driver_calls w))).
Proof.
  intros H. unfold SetAsync, ReplaceOneAsync.
  rewrite (driver_call_completes token w _ H).
  fold (fresh_entry now key value options).
  unfold upserted, ReplaceOne. simpl.
  destruct (replace_first _ _ (store w)); reflexivity.
Qed.



(** Cancelled in flight during the write-back, [GetAsync] throws although the
    store has applied the touch; cancelled before the write-back is sent, it
    throws and the entry is as it was read. *)
Example GetAsync_cancelled_at_write_back :
  let w := mkWorld [CacheEntry.mk "k" [x2a] None (Some 20) 1] 0 in
  GetAsync 5 "k" (Some (mkCancellation 1 true)) w =
    (inl OperationCanceledException,
     mkWorld [CacheEntry.mk "k" [x2a] None (Some 20) 5] 2) /\
  GetAsync 5 "k" (Some (mkCancellation 1 false)) w =
    (inl OperationCanceledException,
     mkWorld [CacheEntry.mk "k" [x2a] None (Some 20) 1] 1).
Proof. split; reflexivity. Qed.

End AsyncProperties.
